(** * graphql-pg-mongo: the resolver map of [server/server.js]

    A shallow embedding of the GraphQL resolvers of the dog walking
    application and of the two stores behind them: the [users] collection
    (Mongo, reached through the mongoose model [User]) and the table
    [public.dogs] (PostgreSQL, reached through [dogDB.query]).

    The resolvers are [async] JavaScript functions.  They are embedded in a
    state-and-exception monad over a [World] holding both stores, their
    availability, the store calls issued so far and the console. *)

From Stdlib Require Import List ZArith String Ascii Bool Lia Permutation Sorted.
Import ListNotations.
Open Scope string_scope.
Open Scope list_scope.
Open Scope Z_scope.

(* ================================================================== *)
(** * Data model *)

(** A Mongo [ObjectID]: its twelve raw bytes. *)
Definition ObjectId := string.

(** One hexadecimal character, as the driver's [/^[0-9a-fA-F]{24}$/]. *)
Definition hex_digit (c : ascii) : option N :=
  let n := N_of_ascii c in
  if ((48 <=? n) && (n <=? 57))%N then Some (n - 48)%N
  else if ((97 <=? n) && (n <=? 102))%N then Some (n - 87)%N
  else if ((65 <=? n) && (n <=? 70))%N then Some (n - 55)%N
  else None.

Fixpoint from_hex (s : string) : option string :=
  match s with
  | EmptyString => Some EmptyString
  | String a (String b rest) =>
      match hex_digit a, hex_digit b, from_hex rest with
      | Some hi, Some lo, Some bytes =>
          Some (String (ascii_of_N (16 * hi + lo)) bytes)
      | _, _, _ => None
      end
  | String _ EmptyString => None
  end.

(** [new ObjectID(id)] on a string: a string of 12 bytes is taken as the raw
    identifier, a string of 24 hex characters is decoded, anything else
    makes the constructor throw ([None]). *)
Definition ObjectID (id : string) : option ObjectId :=
  if (String.length id =? 12)%nat then Some id
  else if (String.length id =? 24)%nat then from_hex id
  else None.

(** A row of [public.dogs] (models/dogs.sql):
    id serial, name varchar, breed varchar(60), walkerId varchar (nullable). *)
Module DogRow.
Record t := mk {
  id : Z;
  name : string;
  breed : string;
  walkerId : option string
}.
End DogRow.

(** A document of the [users] collection (userSchema in models.js):
    _id, name: String, dogIds: [Number]. *)
Module UserDoc.
Record t := mk {
  _id : ObjectId;
  name : string;
  dogIds : list Z
}.
End UserDoc.

(** The statements the resolvers send through [dogDB.query]. *)
Inductive sql :=
| InsertDog (name breed walkerId : string)
    (* INSERT INTO public.dogs("name","breed","walkerId")
       VALUES($1,$2,$3) RETURNING * *)
| SelectAllDogs
    (* SELECT * FROM dogs *)
| SelectDogsIn (ids : list Z).
    (* SELECT * FROM dogs WHERE id IN (<ids, comma separated>) *)

(** Values of a Mongo query filter, and what a document holds at a path. *)
Inductive scalar :=
| VOid (o : ObjectId)
| VStr (s : string)
| VNum (z : Z).

Inductive field_value :=
| FScalar (v : scalar)
| FArray (vs : list scalar).

(** A filter [{ p1: v1, ..., pn: vn }]. *)
Definition query_filter := list (string * scalar).

(** Store round trips, in the order they are issued. *)
Inductive call :=
| PgQuery (q : sql)
| MongoSave (u : UserDoc.t)
| MongoUpdateOne (f : query_filter) (push_dogId : Z)
| MongoFind
| MongoFindOne (f : query_filter).

Inductive error :=
| StoreUnavailable   (* the store cannot be reached *)
| WriteRejected      (* the store refuses the write: a constraint fails *)
| TypeError          (* JavaScript: property read on null or undefined *)
| InvalidObjectID.   (* the ObjectID constructor rejects its argument *)

Record World := mkWorld {
  dogs_table : list DogRow.t;   (* public.dogs, in the store's scan order *)
  dogs_id_seq : Z;              (* last value of the serial sequence of id *)
  users : list UserDoc.t;       (* the users collection *)
  pg_up : bool;                 (* PostgreSQL answers *)
  mongo_up : bool;              (* Mongo answers *)
  calls : list call;            (* store calls issued so far *)
  console : list error          (* what console.error has printed *)
}.

Definition init : World :=
  mkWorld [] 0 [] true true [] [].

(** The environment: a store goes down or comes back; nothing else moves. *)
Definition set_availability (pg mongo : bool) (w : World) : World :=
  mkWorld (dogs_table w) (dogs_id_seq w) (users w) pg mongo
          (calls w) (console w).

(* ================================================================== *)
(** * The monad of resolvers *)

Inductive outcome (A : Type) :=
| Return (a : A)
| Throw (e : error).
Arguments Return {A} a.
Arguments Throw {A} e.

Definition M (A : Type) := World -> outcome A * World.

Definition ret {A} (a : A) : M A := fun w => (Return a, w).

Definition throw {A} (e : error) : M A := fun w => (Throw e, w).

Definition bind {A B} (m : M A) (k : A -> M B) : M B :=
  fun w =>
    match m w with
    | (Return a, w') => k a w'
    | (Throw e, w') => (Throw e, w')
    end.

(** [try { body } catch (e) { handler e }] *)
Definition try_catch {A} (body : M A) (handler : error -> M A) : M A :=
  fun w =>
    match body w with
    | (Return a, w') => (Return a, w')
    | (Throw e, w') => handler e w'
    end.

Notation "x <- m ;; k" := (bind m (fun x => k))
  (at level 61, m at next level, right associativity).
Notation "m ;;; k" := (bind m (fun _ => k))
  (at level 61, right associativity).

Definition issue (c : call) : M unit :=
  fun w => (Return tt,
            mkWorld (dogs_table w) (dogs_id_seq w) (users w)
                    (pg_up w) (mongo_up w) (calls w ++ [c]) (console w)).

Definition console_error (e : error) : M unit :=
  fun w => (Return tt,
            mkWorld (dogs_table w) (dogs_id_seq w) (users w)
                    (pg_up w) (mongo_up w) (calls w) (console w ++ [e])).

(* ================================================================== *)
(** * PostgreSQL: [dogDB] *)

Definition is_space (c : ascii) : bool := (N_of_ascii c =? 32)%N.

Fixpoint all_spaces (s : string) : bool :=
  match s with
  | EmptyString => true
  | String c rest => is_space c && all_spaces rest
  end.

(** Assignment to a [varchar(n)] column, a string being its sequence of
    characters: a longer string is an error, unless the excess characters
    are all spaces, in which case it is truncated to [n] characters. *)
Definition varchar (n : nat) (s : string) : option string :=
  if (String.length s <=? n)%nat then Some s
  else if all_spaces (substring n (String.length s - n) s)
       then Some (substring 0 n s)
       else None.

(** A text parameter holding the character U+0000 is refused by PostgreSQL,
    whatever the column. *)
Fixpoint has_nul (s : string) : bool :=
  match s with
  | EmptyString => false
  | String c rest => (N_of_ascii c =? 0)%N || has_nul rest
  end.

(** The last value the sequence of a [serial] column can hand out; asked
    for one more, [nextval] fails. *)
Definition serial_max : Z := 2147483647.

(** The INSERT is refused before any row is formed: a parameter holds
    U+0000, or the sequence of [id] is exhausted. *)
Definition insert_refused (n b wid : string) (seq : Z) : bool :=
  has_nul n || has_nul b || has_nul wid || (serial_max <=? seq).
Arguments insert_refused : simpl never.

Definition has_id (i : Z) (rows : list DogRow.t) : bool :=
  existsb (fun r => DogRow.id r =? i) rows.

Definition id_in (ids : list Z) (r : DogRow.t) : bool :=
  existsb (fun i => i =? DogRow.id r) ids.

Module dogDB.

(** [pool.query]: runs one statement against [public.dogs]. *)
Definition run (q : sql) : M (list DogRow.t) :=
  fun w =>
    if negb (pg_up w) then (Throw StoreUnavailable, w) else
    match q with
    | SelectAllDogs => (Return (dogs_table w), w)
    | SelectDogsIn ids => (Return (List.filter (id_in ids) (dogs_table w)), w)
    | InsertDog n b wid =>
        if insert_refused n b wid (dogs_id_seq w)
        then (Throw WriteRejected, w) else
        match varchar 60 b with
        | None => (Throw WriteRejected, w)
        | Some b' =>
            let i := dogs_id_seq w + 1 in
            if has_id i (dogs_table w)
            then (Throw WriteRejected,
                  mkWorld (dogs_table w) i (users w)
                          (pg_up w) (mongo_up w) (calls w) (console w))
            else
              let row := DogRow.mk i n b' (Some wid) in
              (Return [row],
               mkWorld (dogs_table w ++ [row]) i (users w)
                       (pg_up w) (mongo_up w) (calls w) (console w))
        end
    end.

(** [dogDB.query(text, params)]: hands the statement to the pool. *)
Definition query (q : sql) : M (list DogRow.t) :=
  issue (PgQuery q) ;;; run q.

End dogDB.

(* ================================================================== *)
(** * Mongo: the mongoose model [User] *)

(** What a [users] document holds at a path of a filter.  The schema has
    the paths [_id], [name] and [dogIds] and no other. *)
Definition doc_field (u : UserDoc.t) (path : string) : option field_value :=
  if String.eqb path "_id" then Some (FScalar (VOid (UserDoc._id u)))
  else if String.eqb path "name" then Some (FScalar (VStr (UserDoc.name u)))
  else if String.eqb path "dogIds"
       then Some (FArray (map VNum (UserDoc.dogIds u)))
  else None.

Definition scalar_eqb (a b : scalar) : bool :=
  match a, b with
  | VOid x, VOid y => String.eqb x y
  | VStr x, VStr y => String.eqb x y
  | VNum x, VNum y => x =? y
  | _, _ => false
  end.

(** Equality match of Mongo: the field equals the value, or is an array
    holding it; a document without the field does not match. *)
Definition field_matches (fv : option field_value) (v : scalar) : bool :=
  match fv with
  | None => false
  | Some (FScalar x) => scalar_eqb x v
  | Some (FArray xs) => existsb (fun x => scalar_eqb x v) xs
  end.

Definition matches (f : query_filter) (u : UserDoc.t) : bool :=
  forallb (fun c => field_matches (doc_field u (fst c)) (snd c)) f.

(** [$push: { dogIds: v }] on the first document that matches. *)
Fixpoint push_first (f : query_filter) (v : Z) (docs : list UserDoc.t)
  : list UserDoc.t :=
  match docs with
  | [] => []
  | u :: rest =>
      if matches f u
      then UserDoc.mk (UserDoc._id u) (UserDoc.name u)
                      (UserDoc.dogIds u ++ [v]) :: rest
      else u :: push_first f v rest
  end.

Definition has_oid (o : ObjectId) (docs : list UserDoc.t) : bool :=
  existsb (fun u => String.eqb (UserDoc._id u) o) docs.

Module User.

(** [new User({ name, dogIds: [] })]: mongoose draws the [_id] when the
    document is built; the drawn identifier is an input of the model. *)
Definition new (fresh : ObjectId) (name : string) : UserDoc.t :=
  UserDoc.mk fresh name [].

(** [user.save()] of a new document: an insert, refused by the unique
    index on [_id] when the identifier is taken. *)
Definition save (u : UserDoc.t) : M unit :=
  issue (MongoSave u) ;;;
  fun w =>
    if negb (mongo_up w) then (Throw StoreUnavailable, w)
    else if has_oid (UserDoc._id u) (users w) then (Throw WriteRejected, w)
    else (Return tt,
          mkWorld (dogs_table w) (dogs_id_seq w) (users w ++ [u])
                  (pg_up w) (mongo_up w) (calls w) (console w)).

(** [User.updateOne(filter, { $push: { dogIds: v } })] *)
Definition updateOne (f : query_filter) (v : Z) : M unit :=
  issue (MongoUpdateOne f v) ;;;
  fun w =>
    if negb (mongo_up w) then (Throw StoreUnavailable, w)
    else (Return tt,
          mkWorld (dogs_table w) (dogs_id_seq w) (push_first f v (users w))
                  (pg_up w) (mongo_up w) (calls w) (console w)).

(** [User.find()] *)
Definition find : M (list UserDoc.t) :=
  issue MongoFind ;;;
  fun w =>
    if negb (mongo_up w) then (Throw StoreUnavailable, w)
    else (Return (users w), w).

(** [User.findOne(filter)]: the first match, or null. *)
Definition findOne (f : query_filter) : M (option UserDoc.t) :=
  issue (MongoFindOne f) ;;;
  fun w =>
    if negb (mongo_up w) then (Throw StoreUnavailable, w)
    else (Return (List.find (matches f) (users w)), w).

End User.

(* ================================================================== *)
(** * The resolver map *)

(** [new ObjectID(walkerId)] inside a resolver. *)
Definition new_ObjectID (s : string) : M ObjectId :=
  match ObjectID s with
  | Some o => ret o
  | None => throw InvalidObjectID
  end.

(** [data.rows[0]] where [data] may still be null. *)
Definition rows0 (data : option (list DogRow.t)) : M (option DogRow.t) :=
  match data with
  | None => throw TypeError
  | Some rows => ret (hd_error rows)
  end.

(** [dog.id] where [dog] may be undefined. *)
Definition dog_id (dog : option DogRow.t) : M Z :=
  match dog with
  | None => throw TypeError
  | Some d => ret (DogRow.id d)
  end.

(** The body of the first [try] of [createDog]:
    [data = await dogDB.query(createQuery, createQueryParams)]. *)
Definition insert_dog (name breed walkerId : string)
  : M (option (list DogRow.t)) :=
  r <- dogDB.query (InsertDog name breed walkerId) ;;
  ret (Some r).

(** The body of the second [try] of [createDog]:
    [await User.updateOne({ _id: new ObjectID(walkerId) },
                          { $push: { dogIds: dog.id } })]. *)
Definition append_dogId (walkerId : string) (dog : option DogRow.t)
  : M unit :=
  o <- new_ObjectID walkerId ;;
  i <- dog_id dog ;;
  User.updateOne [("_id", VOid o)] i.

Module resolvers.

Module Mutation.

Definition createUser (fresh : ObjectId) (name : string) : M UserDoc.t :=
  let user := User.new fresh name in
  try_catch (User.save user) (fun e => console_error e) ;;;
  ret user.

Definition createDog (name breed walkerId : string)
  : M (option DogRow.t) :=
  data <- try_catch
            (insert_dog name breed walkerId)
            (fun e => console_error e ;;; ret None) ;;
  dog <- rows0 data ;;
  try_catch
    (append_dogId walkerId dog)
    (fun e => console_error e) ;;;
  ret dog.

End Mutation.

Module Query.

(** [users: () => User.find()].  The query is handed back as built; what
    is embedded is one execution of it, which decides the value the field
    resolves to. *)
Definition users : M (list UserDoc.t) := User.find.

Definition dogs : M (list DogRow.t) :=
  try_catch
    (dogDB.query SelectAllDogs)
    (fun e => console_error e ;;; ret []).

End Query.

Module Dog.

(** [walker: (root) => User.findOne({ dogId: root.id })].  As for
    [Query.users], one execution of the query handed back. *)
Definition walker (root : DogRow.t) : M (option UserDoc.t) :=
  User.findOne [("dogId", VNum (DogRow.id root))].

End Dog.

Module User.

Definition dogs (root : UserDoc.t) : M (list DogRow.t) :=
  match UserDoc.dogIds root with
  | [] => ret []
  | _ :: _ => dogDB.query (SelectDogsIn (UserDoc.dogIds root))
  end.

End User.

End resolvers.

(* ================================================================== *)
(** * States *)

(** The world a resolver leaves behind. *)
Definition after (A : Type) (m : M A) (w : World) : World := snd (m w).
Arguments after {A} m w.

(** The row's [walkerId] is the identifier of the document. *)
Definition denotes (r : DogRow.t) (u : UserDoc.t) : Prop :=
  exists s, DogRow.walkerId r = Some s /\ ObjectID s = Some (UserDoc._id u).

(** Cross-store referential integrity: a row whose [walkerId] is the
    identifier of a document has its id exactly once in that document's
    [dogIds]. *)
Definition referential_integrity (w : World) : Prop :=
  forall r u,
    In r (dogs_table w) -> In u (users w) -> denotes r u ->
    count_occ Z.eq_dec (UserDoc.dogIds u) (DogRow.id r) = 1%nat.

(** Every dog id held by a walker is the id of a row of the table. *)
Definition dogIds_in_table (w : World) : Prop :=
  forall u i, In u (users w) -> In i (UserDoc.dogIds u) ->
              has_id i (dogs_table w) = true.

(** No row of the table carries the identifier [o] as its [walkerId]. *)
Definition unreferenced (o : ObjectId) (w : World) : Prop :=
  forall r s,
    In r (dogs_table w) -> DogRow.walkerId r = Some s -> ObjectID s <> Some o.

(** The append of [createDog], if reached, is not lost to the store. *)
Definition append_not_lost (n b wid : string) (w : World) : Prop :=
  forall row,
    fst (dogDB.query (InsertDog n b wid) w) = Return [row] ->
    fst (append_dogId wid (Some row)
           (snd (dogDB.query (InsertDog n b wid) w)))
    <> Throw StoreUnavailable.

(** The states the two mutations lead to from the empty stores, the stores
    going down and coming back in between, no append being lost. *)
Inductive reachable : World -> Prop :=
| reach_init : reachable init
| reach_availability w pg mongo :
    reachable w -> reachable (set_availability pg mongo w)
| reach_createUser w o n :
    reachable w ->
    reachable (after (resolvers.Mutation.createUser o n) w)
| reach_createDog w n b wid :
    reachable w -> append_not_lost n b wid w ->
    reachable (after (resolvers.Mutation.createDog n b wid) w).

(** The same, each walker being created under an identifier that no row
    of the table carries yet. *)
Inductive reachable_fresh : World -> Prop :=
| fresh_init : reachable_fresh init
| fresh_availability w pg mongo :
    reachable_fresh w -> reachable_fresh (set_availability pg mongo w)
| fresh_createUser w o n :
    reachable_fresh w -> unreferenced o w ->
    reachable_fresh (after (resolvers.Mutation.createUser o n) w)
| fresh_createDog w n b wid :
    reachable_fresh w -> append_not_lost n b wid w ->
    reachable_fresh (after (resolvers.Mutation.createDog n b wid) w).

Definition invariant (w : World) : Prop :=
  NoDup (map UserDoc._id (users w)) /\
  dogIds_in_table w /\
  referential_integrity w.

(* ================================================================== *)
(** * A running example *)

Definition alice_hex : string := "5e8a1f0b9c3d4e5f6a7b8c01".
Definition bob_hex : string := "5e8a1f0b9c3d4e5f6a7b8c02".
Definition carol_hex : string := "5e8a1f0b9c3d4e5f6a7b8c03".

Definition oid_of_hex (s : string) : ObjectId :=
  match ObjectID s with
  | Some o => o
  | None => EmptyString
  end.

(** Two walkers, Alice and Bob, and Bob's dog Ponzu, made by the mutations. *)
Definition demo : World :=
  after (resolvers.Mutation.createDog "Ponzu" "Pomeranian" bob_hex)
    (after (resolvers.Mutation.createUser (oid_of_hex bob_hex) "Bob")
       (after (resolvers.Mutation.createUser (oid_of_hex alice_hex) "Alice")
          init)).

Definition ponzu : DogRow.t :=
  DogRow.mk 1 "Ponzu" "Pomeranian" (Some bob_hex).

Definition bob : UserDoc.t :=
  UserDoc.mk (oid_of_hex bob_hex) "Bob" [1].

(** Then a second dog for Bob. *)
Definition demo2 : World :=
  after (resolvers.Mutation.createDog "Miki" "Labrador Retriever" bob_hex) demo.

Definition miki : DogRow.t :=
  DogRow.mk 2 "Miki" "Labrador Retriever" (Some bob_hex).

(** A dog given to Carol before Carol is created. *)
Definition dangling : World :=
  after (resolvers.Mutation.createUser (oid_of_hex carol_hex) "Carol")
    (after (resolvers.Mutation.createDog "Rex" "Beagle" carol_hex) init).

Definition rex : DogRow.t :=
  DogRow.mk 1 "Rex" "Beagle" (Some carol_hex).

Definition carol : UserDoc.t :=
  UserDoc.mk (oid_of_hex carol_hex) "Carol" [].

(** The same stores with PostgreSQL, respectively Mongo, out of reach. *)
Definition pg_down : World := set_availability false true demo.
Definition mongo_down : World := set_availability true false demo.

(** A breed of 62 characters, and one of 64 whose last four are spaces. *)
Definition long_breed : string :=
  "Nova Scotia Duck Tolling Retriever crossed with a Pomeranian !".

Definition padded_breed : string :=
  "Nova Scotia Duck Tolling Retriever crossed with a Pomeranian    ".

(* ================================================================== *)
(** * Requests *)

(** What the server is asked for, one resolver at a time; the stores going
    down or coming back is the environment's move. *)
Inductive request :=
| CreateUser (fresh : ObjectId) (name : string)
| CreateDog (name breed walkerId : string)
| QueryUsers
| QueryDogs
| DogWalker (root : DogRow.t)
| UserDogs (root : UserDoc.t)
| Availability (pg mongo : bool).

Definition serve (r : request) (w : World) : World :=
  match r with
  | CreateUser o n => after (resolvers.Mutation.createUser o n) w
  | CreateDog n b wid => after (resolvers.Mutation.createDog n b wid) w
  | QueryUsers => after resolvers.Query.users w
  | QueryDogs => after resolvers.Query.dogs w
  | DogWalker root => after (resolvers.Dog.walker root) w
  | UserDogs root => after (resolvers.User.dogs root) w
  | Availability pg mongo => set_availability pg mongo w
  end.

(** The world after a sequence of requests, from the empty stores. *)
Definition history (rs : list request) : World :=
  fold_left (fun w r => serve r w) rs init.

(** Both stores and their availability are the same in the two worlds. *)
Definition same_stores (w w' : World) : Prop :=
  dogs_table w' = dogs_table w /\
  dogs_id_seq w' = dogs_id_seq w /\
  users w' = users w /\
  pg_up w' = pg_up w /\
  mongo_up w' = mongo_up w.

(** The ids of the table grow along the table and stay within the values
    the sequence has handed out. *)
Definition ids_increasing (w : World) : Prop :=
  StronglySorted Z.lt (map DogRow.id (dogs_table w)) /\
  Forall (fun r => 0 < DogRow.id r <= dogs_id_seq w) (dogs_table w).

(** Every row respects the bound of its [breed] column and names a walker. *)
Definition rows_well_formed (w : World) : Prop :=
  forall r, In r (dogs_table w) ->
    (String.length (DogRow.breed r) <= 60)%nat /\
    exists s, DogRow.walkerId r = Some s.

(** Every id a walker holds is the id of a row that names this walker, and
    a walker holds its ids in increasing order. *)
Definition dogIds_backed (w : World) : Prop :=
  forall u, In u (users w) ->
    StronglySorted Z.lt (UserDoc.dogIds u) /\
    forall i, In i (UserDoc.dogIds u) ->
      exists r, In r (dogs_table w) /\ DogRow.id r = i /\ denotes r u.

Definition served_invariant (w : World) : Prop :=
  0 <= dogs_id_seq w /\
  NoDup (map UserDoc._id (users w)) /\
  ids_increasing w /\
  rows_well_formed w /\
  dogIds_backed w.

(** The requests of the running example, and a walker id no driver takes. *)
Definition demo_requests : list request :=
  [CreateUser (oid_of_hex alice_hex) "Alice";
   CreateUser (oid_of_hex bob_hex) "Bob";
   CreateDog "Ponzu" "Pomeranian" bob_hex;
   CreateDog "Miki" "Labrador Retriever" bob_hex].

Definition short_walkerId : string := "W1".

(* ================================================================== *)
(** * Tactics *)

(** Unfolds a resolver down to the stores. *)
Ltac run :=
  unfold resolvers.Mutation.createUser, resolvers.Mutation.createDog,
    resolvers.Query.users, resolvers.Query.dogs, resolvers.Dog.walker,
    resolvers.User.dogs, User.save, User.updateOne, User.find, User.findOne,
    User.new, insert_dog, append_dogId, dogDB.query, dogDB.run,
    new_ObjectID, rows0, dog_id,
    try_catch, bind, ret, throw, issue, console_error, after; simpl.

(** Splits on what the stores decide. *)
Ltac cases :=
  repeat match goal with
         | |- context [pg_up ?w] => destruct (pg_up w) eqn:?; simpl
         | |- context [mongo_up ?w] => destruct (mongo_up w) eqn:?; simpl
         | |- context [insert_refused ?n ?b ?i ?q] =>
             destruct (insert_refused n b i q) eqn:?; simpl
         | |- context [varchar ?n ?s] => destruct (varchar n s) eqn:?; simpl
         | |- context [has_id ?i ?t] => destruct (has_id i t) eqn:?; simpl
         | |- context [has_oid ?o ?t] => destruct (has_oid o t) eqn:?; simpl
         | |- context [ObjectID ?s] => destruct (ObjectID s) eqn:?; simpl
         end.

(* ================================================================== *)
(** * Basic facts *)

Lemma demo_stores :
  dogs_table demo = [ponzu] /\
  users demo = [UserDoc.mk (oid_of_hex alice_hex) "Alice" []; bob].
Proof. split; vm_compute; reflexivity. Qed.

Lemma find_all_false (A : Type) (p : A -> bool) (l : list A) :
  (forall x, In x l -> p x = false) -> find p l = None.
Proof.
  induction l as [|a l IH]; intros H; simpl; [reflexivity|].
  rewrite (H a (or_introl eq_refl)). apply IH. intros x Hx. apply H. now right.
Qed.

(** No document of the collection has a path [dogId]. *)
Lemma dogId_matches_nothing (v : scalar) (u : UserDoc.t) :
  matches [("dogId", v)] u = false.
Proof. reflexivity. Qed.

Lemma existsb_Permutation (A : Type) (p : A -> bool) (l l' : list A) :
  Permutation l l' -> existsb p l = existsb p l'.
Proof.
  induction 1; simpl.
  - reflexivity.
  - now rewrite IHPermutation.
  - now destruct (p x), (p y).
  - congruence.
Qed.

(* ================================================================== *)
(** * Dog.walker *)

(** C1, at a concrete store.  Bob exists, Ponzu's [walkerId] is Bob's
    identifier and Bob's [dogIds] holds Ponzu's id, yet resolving
    [Dog.walker] for Ponzu yields null and not Bob: the filter is on a
    path [dogId] that no document has, not on the walker's [_id]. *)
Theorem Dog_walker_misses_the_walker :
  In ponzu (dogs_table demo) /\
  In bob (users demo) /\
  option_map ObjectID (DogRow.walkerId ponzu) = Some (Some (UserDoc._id bob)) /\
  mongo_up demo = true /\
  fst (resolvers.Dog.walker ponzu demo) = Return None /\
  fst (resolvers.Dog.walker ponzu demo) <> Return (Some bob).
Proof.
  repeat split; try (vm_compute; tauto); try reflexivity.
  vm_compute. discriminate.
Qed.

(** Whatever the animal, with the store answering the lookup finds no
    document. *)
Lemma Dog_walker_always_null (root : DogRow.t) (w : World) :
  mongo_up w = true -> fst (resolvers.Dog.walker root w) = Return None.
Proof.
  intros Hup. run. rewrite Hup. simpl.
  rewrite find_all_false; [reflexivity|].
  intros u _. apply dogId_matches_nothing.
Qed.

(** C10.  When the store answers and no document matches the filter of
    [Dog.walker], the field resolves to null; nothing is thrown. *)
Theorem Dog_walker_null_when_no_match (root : DogRow.t) (w : World) :
  mongo_up w = true ->
  (forall u, In u (users w) ->
     matches [("dogId", VNum (DogRow.id root))] u = false) ->
  fst (resolvers.Dog.walker root w) = Return None.
Proof.
  intros Hup Hno. run. rewrite Hup. simpl.
  now rewrite (find_all_false _ _ _ Hno).
Qed.

Lemma Dog_walker_null_when_no_match_witness :
  fst (resolvers.Dog.walker ponzu demo) = Return None.
Proof.
  apply (Dog_walker_null_when_no_match ponzu demo).
  - reflexivity.
  - intros u _. apply dogId_matches_nothing.
Defined.

(* ================================================================== *)
(** * User.dogs *)

(** C5.  A walker without dog ids resolves [dogs] to the empty list and the
    world, with its record of store calls, is untouched; a walker with dog
    ids issues one store call, the SELECT carrying all its ids. *)
Theorem User_dogs_store_calls :
  (forall o n w,
     resolvers.User.dogs (UserDoc.mk o n []) w = (Return [], w)) /\
  (forall o n i ids w,
     calls (snd (resolvers.User.dogs (UserDoc.mk o n (i :: ids)) w))
     = calls w ++ [PgQuery (SelectDogsIn (i :: ids))]).
Proof.
  split.
  - reflexivity.
  - intros o n i ids w. run. destruct (pg_up w); reflexivity.
Qed.

(** C9.  With a non-empty [dogIds] and the store answering, [dogs] is the
    table filtered in the table's own order; a walker holding the same ids
    in another order gets the same sequence. *)
Theorem User_dogs_in_table_order (root root' : UserDoc.t) (w : World) :
  pg_up w = true ->
  UserDoc.dogIds root <> [] ->
  Permutation (UserDoc.dogIds root) (UserDoc.dogIds root') ->
  fst (resolvers.User.dogs root w)
  = Return (List.filter (id_in (UserDoc.dogIds root)) (dogs_table w)) /\
  fst (resolvers.User.dogs root' w) = fst (resolvers.User.dogs root w).
Proof.
  intros Hup Hne HP. run.
  destruct (UserDoc.dogIds root) as [|i ids] eqn:E; [congruence|].
  destruct (UserDoc.dogIds root') as [|i' ids'] eqn:E'.
  - symmetry in HP. now apply Permutation_nil in HP.
  - simpl. rewrite Hup. simpl. split; [reflexivity|].
    f_equal. apply filter_ext. intros r. unfold id_in.
    symmetry. now apply existsb_Permutation.
Qed.

Lemma User_dogs_in_table_order_witness :
  fst (resolvers.User.dogs (UserDoc.mk (oid_of_hex bob_hex) "Bob" [2; 1]) demo2)
  = Return [ponzu; miki] /\
  fst (resolvers.User.dogs (UserDoc.mk (oid_of_hex bob_hex) "Bob" [1; 2]) demo2)
  = fst (resolvers.User.dogs (UserDoc.mk (oid_of_hex bob_hex) "Bob" [2; 1]) demo2).
Proof.
  apply (User_dogs_in_table_order
           (UserDoc.mk (oid_of_hex bob_hex) "Bob" [2; 1])
           (UserDoc.mk (oid_of_hex bob_hex) "Bob" [1; 2]) demo2).
  - reflexivity.
  - discriminate.
  - apply perm_swap.
Defined.

(* ================================================================== *)
(** * Mutation.createDog: the two writes *)

(** What the INSERT of [createDog] does to the world. *)
Lemma insert_outcome (n b wid : string) (w : World) :
  let r := dogDB.query (InsertDog n b wid) w in
  (exists e, fst r = Throw e /\
     dogs_table (snd r) = dogs_table w) \/
  (exists b', varchar 60 b = Some b' /\
     has_id (dogs_id_seq w + 1) (dogs_table w) = false /\
     pg_up w = true /\
     fst r = Return [DogRow.mk (dogs_id_seq w + 1) n b' (Some wid)] /\
     dogs_table (snd r)
     = dogs_table w ++ [DogRow.mk (dogs_id_seq w + 1) n b' (Some wid)]).
Proof.
  run. destruct (pg_up w) eqn:Hup; simpl.
  - destruct (insert_refused n b wid (dogs_id_seq w)); simpl; [left; eauto|].
    destruct (varchar 60 b) as [b'|] eqn:Hb; simpl.
    + destruct (has_id (dogs_id_seq w + 1) (dogs_table w)) eqn:Hid; simpl.
      * left. eauto.
      * right. exists b'. auto.
    + left. eauto.
  - left. eauto.
Qed.

(** [createDog] once its INSERT has thrown. *)
Lemma createDog_insert_throws (n b wid : string) (w : World) (e : error) :
  fst (dogDB.query (InsertDog n b wid) w) = Throw e ->
  let r := resolvers.Mutation.createDog n b wid w in
  fst r = Throw TypeError /\
  dogs_table (snd r) = dogs_table w /\
  users (snd r) = users w /\
  console (snd r) = console w ++ [e] /\
  calls (snd r) = calls w ++ [PgQuery (InsertDog n b wid)].
Proof.
  run. cases; intros H; inversion H; subst; auto.
Qed.

(** [createDog] once its INSERT has returned a row. *)
Lemma createDog_insert_returns (n b wid : string) (w : World) (row : DogRow.t) :
  fst (dogDB.query (InsertDog n b wid) w) = Return [row] ->
  let w1 := snd (dogDB.query (InsertDog n b wid) w) in
  let r := resolvers.Mutation.createDog n b wid w in
  fst r = Return (Some row) /\
  dogs_table (snd r) = dogs_table w ++ [row] /\
  match append_dogId wid (Some row) w1 with
  | (Return _, w2) => snd r = w2
  | (Throw e, w2) =>
      users (snd r) = users w /\ console (snd r) = console w ++ [e]
  end.
Proof.
  run. cases; intros H; inversion H; subst; auto.
Qed.

(** C8.  The store calls of [createDog] are the INSERT and then, only when
    the INSERT has returned a row (and [walkerId] parses), one [updateOne];
    and when the INSERT throws, [createDog] throws, the INSERT is its only
    store call and both stores are as they were. *)
Theorem createDog_append_only_after_insert (n b wid : string) (w : World) :
  let r := resolvers.Mutation.createDog n b wid w in
  calls (snd r)
  = calls w ++ PgQuery (InsertDog n b wid) ::
    match fst (dogDB.query (InsertDog n b wid) w), ObjectID wid with
    | Return (row :: _), Some o =>
        [MongoUpdateOne [("_id", VOid o)] (DogRow.id row)]
    | _, _ => []
    end /\
  (forall e,
     fst (dogDB.query (InsertDog n b wid) w) = Throw e ->
     (exists e', fst r = Throw e') /\
     calls (snd r) = calls w ++ [PgQuery (InsertDog n b wid)] /\
     dogs_table (snd r) = dogs_table w /\
     users (snd r) = users w).
Proof.
  intros r. split.
  - subst r. run. cases; rewrite <- ?app_assoc; reflexivity.
  - intros e H.
    destruct (createDog_insert_throws n b wid w e H) as (Hr & Ht & Hu & _ & Hc).
    repeat split; eauto.
Qed.

Lemma createDog_append_only_after_insert_witness :
  (exists e', fst (resolvers.Mutation.createDog "Miki" "Labrador" bob_hex pg_down)
              = Throw e') /\
  calls (snd (resolvers.Mutation.createDog "Miki" "Labrador" bob_hex pg_down))
  = calls pg_down ++ [PgQuery (InsertDog "Miki" "Labrador" bob_hex)].
Proof.
  destruct (createDog_append_only_after_insert "Miki" "Labrador" bob_hex pg_down)
    as (_ & H).
  destruct (H StoreUnavailable eq_refl) as (H1 & H2 & _).
  split; assumption.
Defined.

Lemma has_id_false (i : Z) (rows : list DogRow.t) (r : DogRow.t) :
  has_id i rows = false -> In r rows -> DogRow.id r <> i.
Proof.
  unfold has_id. intros H Hin Heq.
  assert (existsb (fun r => DogRow.id r =? i) rows = true) as E.
  { apply existsb_exists. exists r. split; [assumption|]. now apply Z.eqb_eq. }
  congruence.
Qed.

(** C2, as stated, fails: with Mongo down the INSERT of Miki succeeds, the
    append throws, and [createDog] still answers with the dog. *)
Lemma createDog_append_failure_is_not_reported :
  fst (dogDB.query (InsertDog "Miki" "Labrador Retriever" bob_hex) mongo_down)
  = Return [miki] /\
  fst (append_dogId bob_hex (Some miki)
         (snd (dogDB.query (InsertDog "Miki" "Labrador Retriever" bob_hex)
                 mongo_down)))
  = Throw StoreUnavailable /\
  ~ (exists e,
       fst (resolvers.Mutation.createDog "Miki" "Labrador Retriever" bob_hex
              mongo_down) = Throw e).
Proof.
  repeat split; try reflexivity.
  intros (e & H). vm_compute in H. discriminate.
Qed.

(** C2, amended.  When the INSERT has returned the row and the append
    throws, the row is in the table, the [users] collection is as it was
    (so, where walkers hold only ids of rows of the table, no walker holds
    the new id), the error is printed, and [createDog] returns the row. *)
Theorem createDog_append_failure
    (n b wid : string) (w : World) (row : DogRow.t) (e : error) :
  fst (dogDB.query (InsertDog n b wid) w) = Return [row] ->
  fst (append_dogId wid (Some row)
         (snd (dogDB.query (InsertDog n b wid) w))) = Throw e ->
  let r := resolvers.Mutation.createDog n b wid w in
  In row (dogs_table (snd r)) /\
  users (snd r) = users w /\
  (dogIds_in_table w ->
   forall u, In u (users (snd r)) -> ~ In (DogRow.id row) (UserDoc.dogIds u)) /\
  console (snd r) = console w ++ [e] /\
  fst r = Return (Some row).
Proof.
  intros Hins Happ r.
  destruct (createDog_insert_returns n b wid w row Hins) as (Hr & Ht & Hm).
  fold r in Hr, Ht, Hm.
  destruct (append_dogId wid (Some row)
              (snd (dogDB.query (InsertDog n b wid) w))) as [[a|e'] w2];
    simpl in Happ; [discriminate|].
  inversion Happ; subst e'. destruct Hm as (Hu & Hc).
  repeat split; auto.
  - rewrite Ht. apply in_or_app. right. now left.
  - intros Hinv u Hin Hi. rewrite Hu in Hin.
    pose proof (Hinv u _ Hin Hi) as Hhas.
    destruct (insert_outcome n b wid w) as [(e0 & He & _)|(b' & _ & Hid & _ & Hq & _)].
    + congruence.
    + rewrite Hq in Hins. inversion Hins; subst row. simpl in Hhas. congruence.
Qed.

Lemma createDog_append_failure_witness :
  In miki (dogs_table
             (snd (resolvers.Mutation.createDog "Miki" "Labrador Retriever"
                     bob_hex mongo_down))) /\
  fst (resolvers.Mutation.createDog "Miki" "Labrador Retriever" bob_hex
         mongo_down) = Return (Some miki).
Proof.
  destruct (createDog_append_failure
              "Miki" "Labrador Retriever" bob_hex mongo_down miki
              StoreUnavailable eq_refl eq_refl)
    as (H1 & _ & _ & _ & H5).
  split; assumption.
Defined.

(* ================================================================== *)
(** * Failing store calls *)

(** C3, as stated, fails: with Mongo down [user.save()] throws and
    [createUser] still returns the document, which is in no store. *)
Lemma createUser_hides_save_failure :
  fst (User.save (User.new (oid_of_hex carol_hex) "Carol") mongo_down)
  = Throw StoreUnavailable /\
  ~ (exists e,
       fst (resolvers.Mutation.createUser (oid_of_hex carol_hex) "Carol"
              mongo_down) = Throw e) /\
  users (snd (resolvers.Mutation.createUser (oid_of_hex carol_hex) "Carol"
                mongo_down)) = users mongo_down.
Proof.
  repeat split; try reflexivity.
  intros (e & H). vm_compute in H. discriminate.
Qed.

(** C3, amended.  A failing store call reaches the caller as an error in
    [Query.users], [Dog.walker], [User.dogs] and, for its INSERT, in
    [createDog].  It is printed and then hidden in [createUser] (the unsaved
    document is returned), in [Query.dogs] (the empty list is returned) and,
    for its append, in [createDog] (the dog is returned). *)
Theorem store_failure_outcomes (w : World) (e : error) :
  (mongo_up w = false ->
   fst (resolvers.Query.users w) = Throw StoreUnavailable /\
   forall root, fst (resolvers.Dog.walker root w) = Throw StoreUnavailable) /\
  (pg_up w = false ->
   forall root, UserDoc.dogIds root <> [] ->
     fst (resolvers.User.dogs root w) = Throw StoreUnavailable) /\
  (forall n b wid,
     fst (dogDB.query (InsertDog n b wid) w) = Throw e ->
     exists e', fst (resolvers.Mutation.createDog n b wid w) = Throw e') /\
  (forall o n,
     fst (User.save (User.new o n) w) = Throw e ->
     let r := resolvers.Mutation.createUser o n w in
     fst r = Return (User.new o n) /\
     users (snd r) = users w /\
     console (snd r) = console w ++ [e]) /\
  (fst (dogDB.query SelectAllDogs w) = Throw e ->
   let r := resolvers.Query.dogs w in
   fst r = Return [] /\ console (snd r) = console w ++ [e]) /\
  (forall n b wid row,
     fst (dogDB.query (InsertDog n b wid) w) = Return [row] ->
     fst (append_dogId wid (Some row)
            (snd (dogDB.query (InsertDog n b wid) w))) = Throw e ->
     let r := resolvers.Mutation.createDog n b wid w in
     fst r = Return (Some row) /\ console (snd r) = console w ++ [e]).
Proof.
  repeat apply conj.
  - intros Hup. split; [|intros root]; run; now rewrite Hup.
  - intros Hup root Hne. run.
    destruct (UserDoc.dogIds root); [congruence|]. simpl. now rewrite Hup.
  - intros n b wid H. exists TypeError.
    now apply (createDog_insert_throws n b wid w e).
  - intros o n. run. cases; intros H; inversion H; subst; auto.
  - run. cases; intros H; inversion H; subst; auto.
  - intros n b wid row H1 H2.
    destruct (createDog_insert_returns n b wid w row H1) as (Hr & _ & Hm).
    destruct (append_dogId wid (Some row)
                (snd (dogDB.query (InsertDog n b wid) w))) as [[a|e'] w2];
      simpl in H2; [discriminate|].
    inversion H2; subst e'. split; [assumption|apply Hm].
Qed.

Lemma store_failure_outcomes_witness :
  fst (resolvers.Query.users mongo_down) = Throw StoreUnavailable /\
  fst (resolvers.User.dogs bob pg_down) = Throw StoreUnavailable /\
  fst (resolvers.Query.dogs pg_down) = Return [] /\
  fst (resolvers.Mutation.createUser (oid_of_hex carol_hex) "Carol" mongo_down)
  = Return (User.new (oid_of_hex carol_hex) "Carol").
Proof.
  destruct (store_failure_outcomes mongo_down StoreUnavailable)
    as (Hm & _ & _ & Hu & _ & _).
  destruct (store_failure_outcomes pg_down StoreUnavailable)
    as (_ & Hp & _ & _ & Hq & _).
  split; [|split; [|split]].
  - apply (proj1 (Hm eq_refl)).
  - apply (Hp eq_refl bob). discriminate.
  - apply (proj1 (Hq eq_refl)).
  - apply (proj1 (Hu (oid_of_hex carol_hex) "Carol" eq_refl)).
Defined.

(* ================================================================== *)
(** * The bound on [breed] *)

(** C6, as stated, fails: a breed of 62 characters makes [createDog] throw,
    but what it throws is the TypeError of [data.rows] on null, not the
    store's error. *)
Lemma createDog_long_breed_throws_TypeError :
  (60 < String.length long_breed)%nat /\
  fst (dogDB.query (InsertDog "Rex" long_breed bob_hex) demo)
  = Throw WriteRejected /\
  fst (resolvers.Mutation.createDog "Rex" long_breed bob_hex demo)
  = Throw TypeError /\
  fst (resolvers.Mutation.createDog "Rex" long_breed bob_hex demo)
  <> Throw WriteRejected.
Proof.
  split; [vm_compute; lia|].
  split; [reflexivity|]. split; [reflexivity|].
  vm_compute. discriminate.
Qed.

(** A breed whose characters after the 60th are all spaces is stored, cut
    to 60 characters. *)
Lemma createDog_padded_breed_is_stored :
  (60 < String.length padded_breed)%nat /\
  fst (resolvers.Mutation.createDog "Rex" padded_breed bob_hex demo)
  = Return (Some (DogRow.mk 2 "Rex" (substring 0 60 padded_breed)
                            (Some bob_hex))).
Proof. split; [vm_compute; lia|reflexivity]. Qed.

(** C6, amended.  When the breed has more than 60 characters and a
    character that is not a space after the 60th, [createDog] fails, no row
    is added, the [users] collection is untouched and, the store being
    reachable, the rejection of the write is what is printed. *)
Theorem createDog_breed_too_long (n b wid : string) (w : World) :
  (60 < String.length b)%nat ->
  all_spaces (substring 60 (String.length b - 60) b) = false ->
  let r := resolvers.Mutation.createDog n b wid w in
  (exists e, fst r = Throw e) /\
  dogs_table (snd r) = dogs_table w /\
  users (snd r) = users w /\
  (pg_up w = true -> console (snd r) = console w ++ [WriteRejected]).
Proof.
  intros Hlen Hsp r.
  assert (varchar 60 b = None) as Hv.
  { unfold varchar. apply Nat.leb_gt in Hlen. now rewrite Hlen, Hsp. }
  assert (exists e, fst (dogDB.query (InsertDog n b wid) w) = Throw e /\
                    (pg_up w = true -> e = WriteRejected)) as (e & He & Hw).
  { run. rewrite Hv. destruct (pg_up w); simpl.
    - destruct (insert_refused n b wid (dogs_id_seq w)); simpl; eauto.
    - exists StoreUnavailable. split; [reflexivity|discriminate]. }
  destruct (createDog_insert_throws n b wid w e He) as (Hr & Ht & Hu & Hc & _).
  repeat split; eauto.
  intros Hup. fold r in Hc. rewrite Hc. now rewrite (Hw Hup).
Qed.

Lemma createDog_breed_too_long_witness :
  (exists e, fst (resolvers.Mutation.createDog "Rex" long_breed bob_hex demo)
             = Throw e) /\
  dogs_table (snd (resolvers.Mutation.createDog "Rex" long_breed bob_hex demo))
  = dogs_table demo.
Proof.
  destruct (createDog_breed_too_long "Rex" long_breed bob_hex demo)
    as (H1 & H2 & _).
  - vm_compute. lia.
  - reflexivity.
  - split; assumption.
Defined.

(* ================================================================== *)
(** * The append and the [users] collection *)

Lemma matches_id (o : ObjectId) (u : UserDoc.t) :
  matches [("_id", VOid o)] u = String.eqb (UserDoc._id u) o.
Proof. unfold matches. simpl. apply andb_true_r. Qed.

Lemma push_first_ids (f : query_filter) (v : Z) (docs : list UserDoc.t) :
  map UserDoc._id (push_first f v docs) = map UserDoc._id docs.
Proof.
  induction docs as [|u rest IH]; simpl; [reflexivity|].
  destruct (matches f u); simpl; [reflexivity|]. now rewrite IH.
Qed.

(** A document after the push is a document from before, with the same
    [_id] and with the same [dogIds] or these and the pushed id. *)
Lemma push_first_In (f : query_filter) (v : Z) (docs : list UserDoc.t)
    (u' : UserDoc.t) :
  In u' (push_first f v docs) ->
  exists u, In u docs /\ UserDoc._id u' = UserDoc._id u /\
            (UserDoc.dogIds u' = UserDoc.dogIds u \/
             UserDoc.dogIds u' = UserDoc.dogIds u ++ [v]).
Proof.
  induction docs as [|u rest IH]; simpl; [tauto|].
  destruct (matches f u); simpl.
  - intros [<-|Hin].
    + exists u. simpl. auto.
    + exists u'. auto.
  - intros [<-|Hin].
    + exists u. auto.
    + destruct (IH Hin) as (u0 & H0 & H1). exists u0. auto.
Qed.

(** With distinct [_id]s, the document the filter on [_id] selects is the
    one that received the id. *)
Lemma push_first_hit (o : ObjectId) (v : Z) (docs : list UserDoc.t)
    (u' : UserDoc.t) :
  NoDup (map UserDoc._id docs) ->
  In u' (push_first [("_id", VOid o)] v docs) ->
  UserDoc._id u' = o ->
  exists u, In u docs /\ UserDoc._id u = o /\
            UserDoc.dogIds u' = UserDoc.dogIds u ++ [v].
Proof.
  induction docs as [|u rest IH]; [simpl; tauto|].
  intros Hnd Hin Ho. cbn [push_first map] in Hnd, Hin.
  inversion Hnd as [|x l Hnotin Hnd']; subst x l.
  rewrite matches_id in Hin.
  destruct (String.eqb (UserDoc._id u) o) eqn:E.
  - apply String.eqb_eq in E. destruct Hin as [<-|Hin].
    + exists u. simpl. auto.
    + exfalso. apply Hnotin. rewrite E, <- Ho. now apply in_map.
  - destruct Hin as [<-|Hin].
    + apply String.eqb_neq in E. congruence.
    + destruct (IH Hnd' Hin Ho) as (u0 & H0 & H1). exists u0.
      split; [now right|assumption].
Qed.

(** The first document with the given [_id], after the push: the one from
    before, with the id at the end of its [dogIds]. *)
Lemma find_push_first (o : ObjectId) (v : Z) (docs : list UserDoc.t) :
  has_oid o docs = true ->
  exists u,
    List.find (matches [("_id", VOid o)]) docs = Some u /\
    List.find (matches [("_id", VOid o)]) (push_first [("_id", VOid o)] v docs)
    = Some (UserDoc.mk (UserDoc._id u) (UserDoc.name u)
                       (UserDoc.dogIds u ++ [v])).
Proof.
  induction docs as [|u rest IH]; [discriminate|].
  intros H. cbn [has_oid existsb] in H. cbn [push_first find].
  destruct (matches [("_id", VOid o)] u) eqn:E.
  - exists u. split; [reflexivity|]. cbn [find].
    rewrite matches_id in *. simpl. now rewrite E.
  - cbn [find]. rewrite E. rewrite matches_id in E. rewrite E in H.
    apply IH. exact H.
Qed.

(** [createDog] when both writes go through. *)
Lemma createDog_both_writes
    (n b wid : string) (w : World) (row : DogRow.t) (o : ObjectId) :
  fst (dogDB.query (InsertDog n b wid) w) = Return [row] ->
  ObjectID wid = Some o ->
  mongo_up w = true ->
  let r := resolvers.Mutation.createDog n b wid w in
  fst r = Return (Some row) /\
  dogs_table (snd r) = dogs_table w ++ [row] /\
  users (snd r) = push_first [("_id", VOid o)] (DogRow.id row) (users w) /\
  pg_up (snd r) = true /\
  has_id (DogRow.id row) (dogs_table w) = false /\
  DogRow.name row = n /\
  varchar 60 b = Some (DogRow.breed row) /\
  DogRow.walkerId row = Some wid.
Proof.
  intros Hins Ho Hup. revert Hins. run. rewrite Ho, Hup.
  destruct (pg_up w); simpl; [|discriminate].
  destruct (insert_refused n b wid (dogs_id_seq w)); simpl; [discriminate|].
  destruct (varchar 60 b); simpl; [|discriminate].
  destruct (has_id (dogs_id_seq w + 1) (dogs_table w)) eqn:Hid; simpl;
    [discriminate|].
  intros H. inversion H; subst row. simpl. rewrite Hid. auto 10.
Qed.

(* ================================================================== *)
(** * Round trip *)

(** C4, as stated, fails: with Mongo down [createDog] returns Miki, whose
    [walkerId] is Bob's identifier; Mongo back, no walker resolves [dogs]
    to a sequence holding Miki. *)
Lemma createDog_success_without_reference :
  let w' := set_availability true true
              (after (resolvers.Mutation.createDog
                        "Miki" "Labrador Retriever" bob_hex) mongo_down) in
  fst (resolvers.Mutation.createDog "Miki" "Labrador Retriever" bob_hex
         mongo_down) = Return (Some miki) /\
  ObjectID bob_hex = Some (UserDoc._id bob) /\
  In bob (users mongo_down) /\
  forall u rows,
    In u (users w') -> fst (resolvers.User.dogs u w') = Return rows ->
    ~ In miki rows.
Proof.
  split; [reflexivity|]. split; [reflexivity|]. split; [vm_compute; tauto|].
  intros u rows Hin. vm_compute in Hin.
  destruct Hin as [<-|[<-|[]]]; vm_compute; intros H Hm; inversion H; subst rows.
  - destruct Hm.
  - destruct Hm as [Hm|[]]. discriminate.
Qed.

(** C4, amended.  When [createDog n b w] returns a row, [w] parses to the
    [_id] of a document of [users] and Mongo answers the append, then the
    row has name [n], [walkerId] [w] and the stored form of [b] (which is
    [b] up to 60 characters); [Query.dogs] then returns it, and the first
    document with that [_id] resolves [dogs] to a sequence holding it. *)
Theorem createDog_round_trip
    (n b wid : string) (w : World) (row : DogRow.t) (o : ObjectId) :
  fst (resolvers.Mutation.createDog n b wid w) = Return (Some row) ->
  ObjectID wid = Some o ->
  has_oid o (users w) = true ->
  mongo_up w = true ->
  let w' := after (resolvers.Mutation.createDog n b wid) w in
  (DogRow.name row = n /\
   varchar 60 b = Some (DogRow.breed row) /\
   ((String.length b <= 60)%nat -> DogRow.breed row = b) /\
   DogRow.walkerId row = Some wid) /\
  (exists rows, fst (resolvers.Query.dogs w') = Return rows /\ In row rows) /\
  (exists u rows,
     List.find (matches [("_id", VOid o)]) (users w') = Some u /\
     UserDoc._id u = o /\
     fst (resolvers.User.dogs u w') = Return rows /\ In row rows).
Proof.
  intros Hres Ho Hex Hup w'.
  assert (fst (dogDB.query (InsertDog n b wid) w) = Return [row]) as Hins.
  { destruct (insert_outcome n b wid w)
      as [(e & He & _)|(b' & _ & _ & _ & Hq & _)].
    - destruct (createDog_insert_throws n b wid w e He) as (Ht & _).
      congruence.
    - destruct (createDog_insert_returns n b wid w _ Hq) as (Hr & _).
      congruence. }
  destruct (createDog_both_writes n b wid w row o Hins Ho Hup)
    as (_ & Ht & Hu & Hpg & _ & Hn & Hb & Hw).
  fold (after (resolvers.Mutation.createDog n b wid) w) in Ht, Hu, Hpg.
  fold w' in Ht, Hu, Hpg.
  assert (In row (dogs_table w')) as Hin.
  { rewrite Ht. apply in_or_app. right. now left. }
  split; [|split].
  - repeat split; auto. intros Hlen. unfold varchar in Hb.
    apply Nat.leb_le in Hlen. rewrite Hlen in Hb. congruence.
  - exists (dogs_table w'). split; [|assumption]. run.
    fold (after (resolvers.Mutation.createDog n b wid) w). fold w'.
    now rewrite Hpg.
  - destruct (find_push_first o (DogRow.id row) (users w) Hex)
      as (u & Hf & Hf').
    exists (UserDoc.mk (UserDoc._id u) (UserDoc.name u)
                       (UserDoc.dogIds u ++ [DogRow.id row])).
    exists (List.filter (id_in (UserDoc.dogIds u ++ [DogRow.id row]))
                        (dogs_table w')).
    rewrite Hu. split; [assumption|]. split; [|split].
    + simpl. apply find_some in Hf as (_ & Hm). rewrite matches_id in Hm.
      now apply String.eqb_eq.
    + unfold resolvers.User.dogs. simpl.
      destruct (UserDoc.dogIds u ++ [DogRow.id row]) eqn:E.
      * now apply app_eq_nil in E as (_ & E).
      * rewrite <- E. run. now rewrite Hpg.
    + apply filter_In. split; [assumption|]. unfold id_in.
      rewrite existsb_app. simpl. rewrite Z.eqb_refl.
      now rewrite orb_true_r.
Qed.

Lemma createDog_round_trip_witness :
  (exists rows, fst (resolvers.Query.dogs demo2) = Return rows /\ In miki rows) /\
  (exists u rows,
     List.find (matches [("_id", VOid (oid_of_hex bob_hex))]) (users demo2)
     = Some u /\
     UserDoc._id u = oid_of_hex bob_hex /\
     fst (resolvers.User.dogs u demo2) = Return rows /\ In miki rows).
Proof.
  destruct (createDog_round_trip
              "Miki" "Labrador Retriever" bob_hex demo miki
              (oid_of_hex bob_hex) eq_refl eq_refl eq_refl eq_refl)
    as (_ & H2 & H3).
  split; assumption.
Defined.

(* ================================================================== *)
(** * Referential integrity across the two stores *)

Lemma has_oid_false (o : ObjectId) (docs : list UserDoc.t) :
  has_oid o docs = false -> ~ In o (map UserDoc._id docs).
Proof.
  unfold has_oid. intros H Hin. apply in_map_iff in Hin as (u & E & Hin).
  assert (existsb (fun u => String.eqb (UserDoc._id u) o) docs = true) as X.
  { apply existsb_exists. exists u. split; [assumption|].
    now apply String.eqb_eq. }
  congruence.
Qed.

Lemma has_id_app (i : Z) (t : list DogRow.t) (row : DogRow.t) :
  has_id i t = true -> has_id i (t ++ [row]) = true.
Proof. unfold has_id. intros H. rewrite existsb_app, H. reflexivity. Qed.

Lemma has_id_last (t : list DogRow.t) (row : DogRow.t) :
  has_id (DogRow.id row) (t ++ [row]) = true.
Proof.
  unfold has_id. rewrite existsb_app. simpl. rewrite Z.eqb_refl.
  now rewrite orb_true_r.
Qed.

(** What [createUser] does to the stores. *)
Lemma createUser_world (o : ObjectId) (n : string) (w : World) :
  let w' := after (resolvers.Mutation.createUser o n) w in
  dogs_table w' = dogs_table w /\
  (users w' = users w \/
   has_oid o (users w) = false /\ users w' = users w ++ [User.new o n]).
Proof. run. cases; auto. Qed.

(** What [createDog] does to the stores. *)
Lemma createDog_world (n b wid : string) (w : World) :
  let w' := after (resolvers.Mutation.createDog n b wid) w in
  (dogs_table w' = dogs_table w /\ users w' = users w) \/
  (exists row,
     fst (dogDB.query (InsertDog n b wid) w) = Return [row] /\
     dogs_table w' = dogs_table w ++ [row] /\
     has_id (DogRow.id row) (dogs_table w) = false /\
     DogRow.walkerId row = Some wid /\
     match ObjectID wid with
     | None => users w' = users w
     | Some o =>
         if mongo_up w
         then users w' = push_first [("_id", VOid o)] (DogRow.id row) (users w)
         else fst (append_dogId wid (Some row)
                     (snd (dogDB.query (InsertDog n b wid) w)))
              = Throw StoreUnavailable
     end).
Proof.
  run.
  destruct (pg_up w) eqn:Hpg; simpl; [|now left].
  destruct (insert_refused n b wid (dogs_id_seq w)); simpl; [now left|].
  destruct (varchar 60 b) as [b'|] eqn:Hb; simpl; [|now left].
  destruct (has_id (dogs_id_seq w + 1) (dogs_table w)) eqn:Hid; simpl;
    [now left|].
  right. eexists. split; [reflexivity|]. simpl.
  destruct (ObjectID wid); simpl; [destruct (mongo_up w); simpl|]; auto.
Qed.

Lemma invariant_init : invariant init.
Proof.
  repeat split.
  - constructor.
  - intros u i [].
  - intros r u [].
Qed.

Lemma invariant_createUser (o : ObjectId) (n : string) (w : World) :
  invariant w -> unreferenced o w ->
  invariant (after (resolvers.Mutation.createUser o n) w).
Proof.
  intros (Hnd & Hin & Hri) Hfresh.
  destruct (createUser_world o n w) as (Ht & [Hu|(Hno & Hu)]);
    unfold invariant, dogIds_in_table, referential_integrity;
    rewrite Ht, Hu; [auto|].
  split; [|split].
  - rewrite map_app. simpl.
    apply (NoDup_Add (a := o) (l := map UserDoc._id (users w))).
    + rewrite <- (app_nil_r (map UserDoc._id (users w))) at 1. apply Add_app.
    + split; [assumption|]. now apply has_oid_false.
  - intros u i Hu' Hi. apply in_app_or in Hu' as [Hu'|[<-|[]]].
    + eauto.
    + destruct Hi.
  - intros r u Hr Hu' Hd. apply in_app_or in Hu' as [Hu'|[<-|[]]].
    + eauto.
    + exfalso. destruct Hd as (s & Hs & Hp). exact (Hfresh r s Hr Hs Hp).
Qed.

Lemma invariant_createDog (n b wid : string) (w : World) :
  invariant w -> append_not_lost n b wid w ->
  invariant (after (resolvers.Mutation.createDog n b wid) w).
Proof.
  intros (Hnd & Hin & Hri) Hok.
  destruct (createDog_world n b wid w)
    as [(Ht & Hu)|(row & Hins & Ht & Hid & Hw & Hcase)];
    unfold invariant, dogIds_in_table, referential_integrity.
  - rewrite Ht, Hu. auto.
  - rewrite Ht. destruct (ObjectID wid) as [o|] eqn:Ho.
    + destruct (mongo_up w); [|now destruct (Hok row Hins)].
      rewrite Hcase. split; [|split].
      * now rewrite push_first_ids.
      * intros u' i Hu' Hi.
        destruct (push_first_In _ _ _ _ Hu') as (u & Hu & _ & [E|E]);
          rewrite E in Hi.
        -- apply has_id_app. eauto.
        -- apply in_app_or in Hi as [Hi|[<-|[]]].
           ++ apply has_id_app. eauto.
           ++ apply has_id_last.
      * intros r u' Hr Hu' Hd. apply in_app_or in Hr as [Hr|[<-|[]]].
        -- pose proof (has_id_false _ _ _ Hid Hr) as Hne.
           destruct (push_first_In _ _ _ _ Hu') as (u & Hu & Eid & [E|E]);
             rewrite E.
           ++ apply Hri; auto. destruct Hd as (s & Hs & Hp).
              exists s. now rewrite <- Eid.
           ++ rewrite count_occ_app. simpl.
              destruct (Z.eq_dec (DogRow.id row) (DogRow.id r));
                [congruence|].
              rewrite Nat.add_0_r. apply Hri; auto.
              destruct Hd as (s & Hs & Hp). exists s. now rewrite <- Eid.
        -- destruct Hd as (s & Hs & Hp). rewrite Hw in Hs.
           inversion Hs; subst s. rewrite Ho in Hp. inversion Hp as [Eo].
           destruct (push_first_hit _ _ _ _ Hnd Hu' (eq_sym Eo))
             as (u & Hu & _ & E).
           rewrite E, count_occ_app. simpl.
           destruct (Z.eq_dec (DogRow.id row) (DogRow.id row)); [|congruence].
           assert (count_occ Z.eq_dec (UserDoc.dogIds u) (DogRow.id row)
                   = 0%nat) as ->; [|reflexivity].
           apply count_occ_not_In. intros Hi.
           pose proof (Hin u _ Hu Hi). congruence.
    + rewrite Hcase. split; [assumption|]. split.
      * intros u i Hu Hi. apply has_id_app. eauto.
      * intros r u Hr Hu Hd. apply in_app_or in Hr as [Hr|[<-|[]]].
        -- eauto.
        -- destruct Hd as (s & Hs & Hp). rewrite Hw in Hs.
           inversion Hs; subst s. congruence.
Qed.

Lemma reachable_fresh_invariant (w : World) :
  reachable_fresh w -> invariant w.
Proof.
  induction 1 as [|w pg mongo _ IH|w o n _ IH Hf|w n b wid _ IH Hok].
  - apply invariant_init.
  - exact IH.
  - now apply invariant_createUser.
  - now apply invariant_createDog.
Qed.

(** C7, as stated, fails.  [createDog] for an identifier no walker has
    inserts the row and its append, matching nothing, succeeds; a walker
    then created under that identifier exists with no dog ids, and the row
    names it.  No append has failed and nothing has been printed. *)
Lemma reachable_breaks_referential_integrity :
  reachable dangling /\
  console dangling = [] /\
  In rex (dogs_table dangling) /\
  In carol (users dangling) /\
  denotes rex carol /\
  ~ referential_integrity dangling.
Proof.
  split; [|split; [|split; [|split; [|split]]]].
  - apply reach_createUser, reach_createDog; [apply reach_init|].
    intros row _ H. vm_compute in H. discriminate.
  - reflexivity.
  - vm_compute. tauto.
  - vm_compute. tauto.
  - exists carol_hex. split; reflexivity.
  - intros H. specialize (H rex carol).
    assert (count_occ Z.eq_dec (UserDoc.dogIds carol) (DogRow.id rex) = 1%nat)
      as E.
    { apply H.
      - vm_compute. tauto.
      - vm_compute. tauto.
      - exists carol_hex. split; reflexivity. }
    vm_compute in E. discriminate.
Qed.

(** C7, amended.  In every state reached from the empty stores by
    [createUser] and [createDog], no append of [createDog] being lost to the
    store and each walker being created under an identifier that no row
    carries yet, a row whose [walkerId] is the identifier of a document of
    [users] has its id exactly once in that document's [dogIds]. *)
Theorem reachable_fresh_referential_integrity (w : World) :
  reachable_fresh w -> referential_integrity w.
Proof. intros H. apply (reachable_fresh_invariant w H). Qed.

Lemma reachable_fresh_demo : reachable_fresh demo.
Proof.
  apply fresh_createDog; [apply fresh_createUser; [apply fresh_createUser|]|].
  - apply fresh_init.
  - intros r s Hin. vm_compute in Hin. destruct Hin.
  - intros r s Hin. vm_compute in Hin. destruct Hin.
  - intros row _ H. vm_compute in H. discriminate.
Qed.

Lemma reachable_fresh_referential_integrity_witness :
  referential_integrity demo /\
  count_occ Z.eq_dec (UserDoc.dogIds bob) (DogRow.id ponzu) = 1%nat.
Proof.
  pose proof (reachable_fresh_referential_integrity demo reachable_fresh_demo)
    as H.
  split; [exact H|].
  apply (H ponzu bob).
  - vm_compute. tauto.
  - vm_compute. tauto.
  - exists bob_hex. split; reflexivity.
Defined.

(* ================================================================== *)
(** * Mutation.createUser *)

(** X1.  [createUser] never throws: whatever the store does, it returns the
    document it built, with the given name and no dog ids.  It issues one
    store call, the save; it leaves the table of dogs alone and keeps the
    documents that were there, in place, adding at most its own. *)
Theorem createUser_always_returns (o : ObjectId) (n : string) (w : World) :
  let r := resolvers.Mutation.createUser o n w in
  fst r = Return (UserDoc.mk o n []) /\
  calls (snd r) = calls w ++ [MongoSave (UserDoc.mk o n [])] /\
  dogs_table (snd r) = dogs_table w /\
  dogs_id_seq (snd r) = dogs_id_seq w /\
  (users (snd r) = users w \/ users (snd r) = users w ++ [UserDoc.mk o n []]).
Proof. run. cases; auto 6. Qed.

(** X2.  With Mongo answering and the identifier not taken, the walker
    [createUser] returns is stored, nothing is printed, [Query.users] then
    lists it after the walkers that were there, and its [dogs] resolves to
    the empty sequence. *)
Theorem createUser_then_users (o : ObjectId) (n : string) (w : World) :
  mongo_up w = true ->
  has_oid o (users w) = false ->
  let w' := after (resolvers.Mutation.createUser o n) w in
  console w' = console w /\
  fst (resolvers.Query.users w') = Return (users w ++ [UserDoc.mk o n []]) /\
  fst (resolvers.User.dogs (UserDoc.mk o n []) w') = Return [].
Proof.
  intros Hup Hno. run.
  repeat (progress (rewrite ?Hup, ?Hno; simpl)). auto.
Qed.

Lemma createUser_then_users_witness :
  fst (resolvers.Query.users
         (after (resolvers.Mutation.createUser (oid_of_hex carol_hex) "Carol")
            demo))
  = Return (users demo ++ [UserDoc.mk (oid_of_hex carol_hex) "Carol" []]).
Proof.
  destruct (createUser_then_users (oid_of_hex carol_hex) "Carol" demo
              eq_refl eq_refl) as (_ & H & _).
  exact H.
Defined.

(* ================================================================== *)
(** * The read resolvers *)

(** X3.  [Query.dogs] never throws: it returns the whole table, in the
    table's order, when PostgreSQL answers, and the empty list, after
    printing the error, when it does not. *)
Theorem Query_dogs_always_returns (w : World) :
  let r := resolvers.Query.dogs w in
  fst r = Return (if pg_up w then dogs_table w else []) /\
  console (snd r)
  = console w ++ (if pg_up w then [] else [StoreUnavailable]).
Proof. run. cases; rewrite ?app_nil_r; auto. Qed.

(** One execution of a read resolver leaves the stores as they are. *)
Lemma read_once_same_stores (w : World) :
  same_stores w (after resolvers.Query.users w) /\
  same_stores w (after resolvers.Query.dogs w) /\
  (forall root, same_stores w (after (resolvers.Dog.walker root) w)) /\
  (forall root, same_stores w (after (resolvers.User.dogs root) w)).
Proof.
  unfold same_stores. repeat apply conj; try intros root; run;
    try (destruct (UserDoc.dogIds root); simpl);
    destruct (pg_up w) eqn:P, (mongo_up w) eqn:Q; simpl;
    rewrite ?P, ?Q; auto 10.
Qed.

Lemma same_stores_iter (f : World -> World) (k : nat) (w : World) :
  (forall x, same_stores x (f x)) -> same_stores w (Nat.iter k f w).
Proof.
  intros Hf. induction k as [|k IH]; simpl.
  - unfold same_stores. auto.
  - destruct IH as (H1 & H2 & H3 & H4 & H5).
    destruct (Hf (Nat.iter k f w)) as (G1 & G2 & G3 & G4 & G5).
    unfold same_stores. repeat split; congruence.
Qed.

(** X4.  The four read resolvers write to no store: however many times
    each is executed, table, sequence, [users] and availability are as
    before.  One execution of [Query.dogs] makes one store call, the SELECT
    of all dogs. *)
Theorem reads_write_to_no_store (w : World) (k : nat) :
  same_stores w (Nat.iter k (after resolvers.Query.users) w) /\
  same_stores w (Nat.iter k (after resolvers.Query.dogs) w) /\
  (forall root,
     same_stores w (Nat.iter k (after (resolvers.Dog.walker root)) w)) /\
  (forall root,
     same_stores w (Nat.iter k (after (resolvers.User.dogs root)) w)) /\
  calls (after resolvers.Query.dogs w) = calls w ++ [PgQuery SelectAllDogs].
Proof.
  repeat apply conj; try intros root; try apply same_stores_iter;
    try (intros x; apply (read_once_same_stores x)).
  run. destruct (pg_up w); reflexivity.
Qed.

(* ================================================================== *)
(** * Mutation.createDog: the walker named by [walkerId] *)

Lemma push_first_no_match (o : ObjectId) (v : Z) (docs : list UserDoc.t) :
  has_oid o docs = false -> push_first [("_id", VOid o)] v docs = docs.
Proof.
  induction docs as [|u rest IH]; [reflexivity|].
  cbn [has_oid existsb push_first]. rewrite matches_id.
  destruct (String.eqb (UserDoc._id u) o); simpl; [discriminate|].
  intros H. f_equal. now apply IH.
Qed.

(** X5.  When the INSERT has returned the row and [walkerId] is not a
    string the [ObjectID] constructor takes, [createDog] still returns the
    row: the constructor's error is printed, Mongo is not called and no
    walker changes. *)
Theorem createDog_invalid_walkerId
    (n b wid : string) (w : World) (row : DogRow.t) :
  fst (dogDB.query (InsertDog n b wid) w) = Return [row] ->
  ObjectID wid = None ->
  let r := resolvers.Mutation.createDog n b wid w in
  fst r = Return (Some row) /\
  In row (dogs_table (snd r)) /\
  users (snd r) = users w /\
  console (snd r) = console w ++ [InvalidObjectID] /\
  calls (snd r) = calls w ++ [PgQuery (InsertDog n b wid)].
Proof.
  intros Hins Ho. revert Hins. run. rewrite Ho.
  destruct (pg_up w); simpl; [|discriminate].
  destruct (insert_refused n b wid (dogs_id_seq w)); simpl; [discriminate|].
  destruct (varchar 60 b); simpl; [|discriminate].
  destruct (has_id (dogs_id_seq w + 1) (dogs_table w)); simpl; [discriminate|].
  intros H. inversion H; subst row. repeat split; auto.
  apply in_or_app. right. now left.
Qed.

Lemma createDog_invalid_walkerId_witness :
  fst (resolvers.Mutation.createDog "Rex" "Beagle" short_walkerId demo)
  = Return (Some (DogRow.mk 2 "Rex" "Beagle" (Some short_walkerId))) /\
  users (snd (resolvers.Mutation.createDog "Rex" "Beagle" short_walkerId demo))
  = users demo.
Proof.
  destruct (createDog_invalid_walkerId "Rex" "Beagle" short_walkerId demo
              (DogRow.mk 2 "Rex" "Beagle" (Some short_walkerId))
              eq_refl eq_refl) as (H1 & _ & H3 & _).
  split; assumption.
Defined.

(** X6.  When the INSERT has returned the row, [walkerId] parses and Mongo
    answers but holds no walker with that identifier, [createDog] returns
    the row, no walker changes and nothing is printed: the row names a
    walker that is not there, and nobody is told. *)
Theorem createDog_unknown_walker
    (n b wid : string) (w : World) (row : DogRow.t) (o : ObjectId) :
  fst (dogDB.query (InsertDog n b wid) w) = Return [row] ->
  ObjectID wid = Some o ->
  mongo_up w = true ->
  has_oid o (users w) = false ->
  let r := resolvers.Mutation.createDog n b wid w in
  fst r = Return (Some row) /\
  In row (dogs_table (snd r)) /\
  users (snd r) = users w /\
  console (snd r) = console w /\
  calls (snd r)
  = calls w ++ [PgQuery (InsertDog n b wid);
                MongoUpdateOne [("_id", VOid o)] (DogRow.id row)].
Proof.
  intros Hins Ho Hup Hno. revert Hins. run. rewrite Ho, Hup.
  destruct (pg_up w); simpl; [|discriminate].
  destruct (insert_refused n b wid (dogs_id_seq w)); simpl; [discriminate|].
  destruct (varchar 60 b); simpl; [|discriminate].
  destruct (has_id (dogs_id_seq w + 1) (dogs_table w)); simpl; [discriminate|].
  intros H. inversion H; subst row. simpl.
  rewrite (push_first_no_match _ _ _ Hno), <- app_assoc.
  repeat split; auto.
  apply in_or_app. right. now left.
Qed.

Lemma createDog_unknown_walker_witness :
  fst (resolvers.Mutation.createDog "Rex" "Beagle" carol_hex demo)
  = Return (Some (DogRow.mk 2 "Rex" "Beagle" (Some carol_hex))) /\
  users (snd (resolvers.Mutation.createDog "Rex" "Beagle" carol_hex demo))
  = users demo /\
  console (snd (resolvers.Mutation.createDog "Rex" "Beagle" carol_hex demo))
  = console demo.
Proof.
  destruct (createDog_unknown_walker "Rex" "Beagle" carol_hex demo
              (DogRow.mk 2 "Rex" "Beagle" (Some carol_hex))
              (oid_of_hex carol_hex) eq_refl eq_refl eq_refl eq_refl)
    as (H1 & _ & H3 & H4 & _).
  repeat split; assumption.
Defined.

(* ================================================================== *)
(** * Mutation.createDog: what it does to the stores *)

(** The whole effect of [createDog] on the stores. *)
Lemma createDog_effect (n b wid : string) (w : World) :
  let w' := after (resolvers.Mutation.createDog n b wid) w in
  (dogs_table w' = dogs_table w /\ users w' = users w /\
   dogs_id_seq w <= dogs_id_seq w') \/
  (exists b',
     varchar 60 b = Some b' /\
     pg_up w = true /\
     has_id (dogs_id_seq w + 1) (dogs_table w) = false /\
     dogs_table w'
     = dogs_table w ++ [DogRow.mk (dogs_id_seq w + 1) n b' (Some wid)] /\
     dogs_id_seq w' = dogs_id_seq w + 1 /\
     (users w' = users w \/
      exists o, ObjectID wid = Some o /\
                users w'
                = push_first [("_id", VOid o)] (dogs_id_seq w + 1) (users w))).
Proof.
  run.
  destruct (pg_up w) eqn:Hpg; simpl; [|left; repeat split; auto; lia].
  destruct (insert_refused n b wid (dogs_id_seq w)); simpl;
    [left; repeat split; auto; lia|].
  destruct (varchar 60 b) as [b'|] eqn:Hb; simpl;
    [|left; repeat split; auto; lia].
  destruct (has_id (dogs_id_seq w + 1) (dogs_table w)) eqn:Hid; simpl;
    [left; repeat split; auto; lia|].
  right. exists b'.
  destruct (ObjectID wid) as [o|]; simpl;
    [destruct (mongo_up w); simpl|]; repeat split; eauto.
Qed.

(** The documents after the push, one by one against those before. *)
Lemma push_first_pointwise (f : query_filter) (v : Z) (docs : list UserDoc.t) :
  Forall2 (fun u u' =>
             UserDoc._id u' = UserDoc._id u /\
             UserDoc.name u' = UserDoc.name u /\
             (UserDoc.dogIds u' = UserDoc.dogIds u \/
              matches f u = true /\ UserDoc.dogIds u' = UserDoc.dogIds u ++ [v]))
          docs (push_first f v docs).
Proof.
  induction docs as [|u rest IH]; cbn [push_first]; [constructor|].
  destruct (matches f u) eqn:E.
  - constructor; [simpl; auto|].
    clear. induction rest; constructor; auto.
  - constructor; auto.
Qed.

(** X7.  Whatever happens, [createDog] keeps the walkers: the documents of
    [users] after it are those before it, in order, each with its [_id] and
    name, and with its [dogIds] either untouched or longer by one id at the
    end.  The table of dogs is kept too, with at most one row more. *)
Theorem createDog_keeps_walkers (n b wid : string) (w : World) :
  let w' := after (resolvers.Mutation.createDog n b wid) w in
  Forall2 (fun u u' =>
             UserDoc._id u' = UserDoc._id u /\
             UserDoc.name u' = UserDoc.name u /\
             (UserDoc.dogIds u' = UserDoc.dogIds u \/
              exists i, UserDoc.dogIds u' = UserDoc.dogIds u ++ [i]))
          (users w) (users w') /\
  (dogs_table w' = dogs_table w \/
   exists row, dogs_table w' = dogs_table w ++ [row]).
Proof.
  intros w'.
  assert (forall docs : list UserDoc.t,
            Forall2 (fun u u' =>
                       UserDoc._id u' = UserDoc._id u /\
                       UserDoc.name u' = UserDoc.name u /\
                       (UserDoc.dogIds u' = UserDoc.dogIds u \/
                        exists i, UserDoc.dogIds u' = UserDoc.dogIds u ++ [i]))
                    docs docs) as Hrefl.
  { induction docs; constructor; auto. }
  destruct (createDog_effect n b wid w)
    as [(Ht & Hu & _)|(b' & _ & _ & _ & Ht & _ & [Hu|(o & _ & Hu)])];
    fold w' in Ht, Hu; rewrite Hu; split; eauto.
  eapply Forall2_impl; [|apply push_first_pointwise].
  intros u u' (H1 & H2 & [H3|(_ & H3)]); eauto.
Qed.

(** X8.  If [createDog] returns at all, it returns a row, never null: the
    row it has just put at the end of the table, carrying the new value of
    the sequence as its id, the given name and [walkerId], and the breed as
    the column stores it. *)
Theorem createDog_returns_the_inserted_row
    (n b wid : string) (w : World) (d : option DogRow.t) :
  fst (resolvers.Mutation.createDog n b wid w) = Return d ->
  let w' := after (resolvers.Mutation.createDog n b wid) w in
  exists row,
    d = Some row /\
    dogs_table w' = dogs_table w ++ [row] /\
    DogRow.id row = dogs_id_seq w' /\
    dogs_id_seq w' = dogs_id_seq w + 1 /\
    DogRow.name row = n /\
    varchar 60 b = Some (DogRow.breed row) /\
    DogRow.walkerId row = Some wid.
Proof.
  run.
  destruct (pg_up w); simpl; [|discriminate].
  destruct (insert_refused n b wid (dogs_id_seq w)); simpl; [discriminate|].
  destruct (varchar 60 b) as [b'|]; simpl; [|discriminate].
  destruct (has_id (dogs_id_seq w + 1) (dogs_table w)); simpl; [discriminate|].
  destruct (ObjectID wid); simpl; [destruct (mongo_up w); simpl|];
    intros H; inversion H; subst d; eexists; repeat split; reflexivity.
Qed.

Lemma createDog_returns_the_inserted_row_witness :
  exists row,
    Some miki = Some row /\
    dogs_table demo2 = dogs_table demo ++ [row] /\
    DogRow.id row = dogs_id_seq demo2.
Proof.
  destruct (createDog_returns_the_inserted_row
              "Miki" "Labrador Retriever" bob_hex demo (Some miki) eq_refl)
    as (row & H1 & H2 & H3 & _).
  exists row. repeat split; assumption.
Defined.

(* ================================================================== *)
(** * What every sequence of requests keeps *)

Lemma substring_length (n : nat) (s : string) :
  (String.length (substring 0 n s) <= n)%nat.
Proof.
  revert s. induction n as [|n IH]; intros [|c s]; simpl; try lia.
  specialize (IH s). lia.
Qed.

Lemma varchar_length (n : nat) (s s' : string) :
  varchar n s = Some s' -> (String.length s' <= n)%nat.
Proof.
  unfold varchar. destruct (String.length s <=? n)%nat eqn:E.
  - intros H. inversion H; subst s'. now apply Nat.leb_le.
  - destruct (all_spaces _); [|discriminate].
    intros H. inversion H. apply substring_length.
Qed.

Lemma StronglySorted_snoc (l : list Z) (a : Z) :
  StronglySorted Z.lt l -> Forall (fun x => x < a) l ->
  StronglySorted Z.lt (l ++ [a]).
Proof.
  induction 1 as [|x l Hs IH Hx]; intros Hall; simpl.
  - repeat constructor.
  - inversion Hall as [|y l' Hxa Hla]; subst. constructor; [auto|].
    apply Forall_app. split; [assumption|]. now constructor.
Qed.

Lemma StronglySorted_NoDup (l : list Z) :
  StronglySorted Z.lt l -> NoDup l.
Proof.
  induction 1 as [|x l Hs IH Hx]; constructor; [|assumption].
  intros Hin. rewrite Forall_forall in Hx. specialize (Hx x Hin). lia.
Qed.

(** A document after the push is one from before, or the first match with
    the id at the end of its [dogIds]. *)
Lemma push_first_cases (f : query_filter) (v : Z) (docs : list UserDoc.t)
    (u' : UserDoc.t) :
  In u' (push_first f v docs) ->
  In u' docs \/
  exists u, In u docs /\ matches f u = true /\
            UserDoc._id u' = UserDoc._id u /\
            UserDoc.dogIds u' = UserDoc.dogIds u ++ [v].
Proof.
  induction docs as [|u rest IH]; cbn [push_first]; [tauto|].
  destruct (matches f u) eqn:E.
  - intros [<-|Hin].
    + right. exists u. simpl. auto using in_eq.
    + left. now right.
  - intros [<-|Hin].
    + left. now left.
    + destruct (IH Hin) as [H|(u0 & H0 & H1)].
      * left. now right.
      * right. exists u0. split; [now right|assumption].
Qed.

(** The whole effect of [createUser] on the stores. *)
Lemma createUser_effect (o : ObjectId) (n : string) (w : World) :
  let w' := after (resolvers.Mutation.createUser o n) w in
  dogs_table w' = dogs_table w /\
  dogs_id_seq w' = dogs_id_seq w /\
  (users w' = users w \/
   has_oid o (users w) = false /\ users w' = users w ++ [UserDoc.mk o n []]).
Proof. run. cases; auto. Qed.

(** The invariant looks at the stores only, and lets the sequence run
    ahead. *)
Lemma served_invariant_stores (w w' : World) :
  dogs_table w' = dogs_table w ->
  users w' = users w ->
  dogs_id_seq w <= dogs_id_seq w' ->
  served_invariant w -> served_invariant w'.
Proof.
  intros Ht Hu Hs (H0 & Hnd & (Hsort & Hb) & Hwf & Hback).
  unfold served_invariant, ids_increasing, rows_well_formed, dogIds_backed.
  rewrite Ht, Hu.
  split; [lia|]. split; [assumption|]. split; [|split; assumption].
  split; [assumption|].
  eapply Forall_impl; [|exact Hb]. simpl. intros r Hr. lia.
Qed.

Lemma served_invariant_same (w w' : World) :
  same_stores w w' -> served_invariant w -> served_invariant w'.
Proof.
  intros (Ht & Hs & Hu & _). apply served_invariant_stores; auto. lia.
Qed.

Lemma served_invariant_createUser (o : ObjectId) (n : string) (w : World) :
  served_invariant w ->
  served_invariant (after (resolvers.Mutation.createUser o n) w).
Proof.
  intros Hinv.
  destruct (createUser_effect o n w) as (Ht & Hs & [Hu|(Hno & Hu)]).
  - apply (served_invariant_stores w); auto. lia.
  - destruct Hinv as (H0 & Hnd & (Hsort & Hb) & Hwf & Hback).
    unfold served_invariant, ids_increasing, rows_well_formed, dogIds_backed.
    rewrite Ht, Hs, Hu.
    split; [assumption|]. split; [|split; [split; assumption|]].
    + rewrite map_app. simpl.
      apply (NoDup_Add (a := o) (l := map UserDoc._id (users w))).
      * rewrite <- (app_nil_r (map UserDoc._id (users w))) at 1.
        apply Add_app.
      * split; [assumption|]. now apply has_oid_false.
    + split; [assumption|].
      intros u Hin. apply in_app_or in Hin as [Hin|[<-|[]]];
        [now apply Hback|].
      simpl. split; [constructor|intros i []].
Qed.

Lemma served_invariant_createDog (n b wid : string) (w : World) :
  served_invariant w ->
  served_invariant (after (resolvers.Mutation.createDog n b wid) w).
Proof.
  intros Hinv.
  destruct (createDog_effect n b wid w)
    as [(Ht & Hu & Hs)|(b' & Hb' & _ & _ & Ht & Hs & Husers)].
  - now apply (served_invariant_stores w).
  - destruct Hinv as (H0 & Hnd & (Hsort & Hb) & Hwf & Hback).
    assert (forall u i, In u (users w) -> In i (UserDoc.dogIds u) ->
                        i < dogs_id_seq w + 1) as Hlt.
    { intros u i Hu Hi. destruct (Hback u Hu) as (_ & Hex).
      destruct (Hex i Hi) as (r & Hr & <- & _).
      rewrite Forall_forall in Hb. specialize (Hb r Hr). lia. }
    unfold served_invariant, ids_increasing, rows_well_formed, dogIds_backed.
    rewrite Ht, Hs. split; [lia|]. split; [|split; [|split]].
    + destruct Husers as [->|(o & _ & ->)]; [assumption|].
      now rewrite push_first_ids.
    + split.
      * rewrite map_app. simpl. apply StronglySorted_snoc; [assumption|].
        apply Forall_map. eapply Forall_impl; [|exact Hb].
        simpl. intros r Hr. lia.
      * apply Forall_app. split.
        -- eapply Forall_impl; [|exact Hb]. simpl. intros r Hr. lia.
        -- constructor; [simpl; lia|constructor].
    + intros r Hr. apply in_app_or in Hr as [Hr|[<-|[]]]; [now apply Hwf|].
      simpl. split; [now apply (varchar_length 60 b)|eauto].
    + assert (forall u, In u (users w) ->
                StronglySorted Z.lt (UserDoc.dogIds u) /\
                forall i, In i (UserDoc.dogIds u) ->
                  exists r,
                    In r (dogs_table w ++
                          [DogRow.mk (dogs_id_seq w + 1) n b' (Some wid)]) /\
                    DogRow.id r = i /\ denotes r u) as Hold.
      { intros u Hu. destruct (Hback u Hu) as (Hs' & Hex).
        split; [assumption|]. intros i Hi.
        destruct (Hex i Hi) as (r & Hr & Hid & Hd).
        exists r. split; [apply in_or_app; now left|auto]. }
      destruct Husers as [->|(o & Ho & ->)]; [exact Hold|].
      intros u' Hu'.
      destruct (push_first_cases _ _ _ _ Hu')
        as [Hu|(u & Hu & Hm & Eid & Eids)]; [now apply Hold|].
      rewrite Eids. destruct (Hold u Hu) as (Hs' & Hex). split.
      * apply StronglySorted_snoc; [assumption|].
        apply Forall_forall. intros i Hi. now apply (Hlt u).
      * intros i Hi. apply in_app_or in Hi as [Hi|[<-|[]]].
        -- destruct (Hex i Hi) as (r & Hr & Hid & (s & Hws & Hp)).
           exists r. repeat split; auto. exists s. now rewrite Eid.
        -- exists (DogRow.mk (dogs_id_seq w + 1) n b' (Some wid)).
           split; [apply in_or_app; right; now left|].
           split; [reflexivity|]. exists wid. split; [reflexivity|].
           rewrite matches_id in Hm. apply String.eqb_eq in Hm.
           now rewrite Eid, Hm.
Qed.

Lemma served_invariant_serve (r : request) (w : World) :
  served_invariant w -> served_invariant (serve r w).
Proof.
  destruct r as [o n|n b wid| | |root|root|pg mongo]; simpl.
  - apply served_invariant_createUser.
  - apply served_invariant_createDog.
  - apply served_invariant_stores; run; cases; auto; lia.
  - apply served_invariant_stores; run; cases; auto; lia.
  - apply served_invariant_stores; run; cases; auto; lia.
  - apply served_invariant_stores; run;
      destruct (UserDoc.dogIds root); simpl; cases; auto; lia.
  - apply served_invariant_stores; simpl; auto; lia.
Qed.

Lemma history_snoc (rs : list request) (r : request) :
  history (rs ++ [r]) = serve r (history rs).
Proof. unfold history. now rewrite fold_left_app. Qed.

Lemma history_invariant (rs : list request) : served_invariant (history rs).
Proof.
  induction rs as [|r rs IH] using rev_ind.
  - unfold history, served_invariant, ids_increasing, rows_well_formed,
      dogIds_backed. simpl.
    repeat split; try constructor; try lia; intros ? [].
  - rewrite history_snoc. now apply served_invariant_serve.
Qed.

Lemma StronglySorted_ext (l1 l2 : list Z) :
  StronglySorted Z.lt l1 -> StronglySorted Z.lt l2 ->
  (forall x, In x l1 <-> In x l2) -> l1 = l2.
Proof.
  revert l2. induction l1 as [|a l1 IH]; intros [|b l2] H1 H2 Hext.
  - reflexivity.
  - destruct (proj2 (Hext b) (in_eq b l2)).
  - destruct (proj1 (Hext a) (in_eq a l1)).
  - inversion H1 as [|x l Hs1 Ha]; subst. inversion H2 as [|y l Hs2 Hb]; subst.
    rewrite Forall_forall in Ha, Hb.
    assert (a = b) as ->.
    { destruct (proj1 (Hext a) (in_eq a l1)) as [E|Hin]; [auto|].
      destruct (proj2 (Hext b) (in_eq b l2)) as [E|Hin']; [auto|].
      specialize (Ha b Hin'). specialize (Hb a Hin). lia. }
    f_equal. apply IH; auto. intros x. split; intros Hx.
    + destruct (proj1 (Hext x) (in_cons b x l1 Hx)) as [E|Hin]; [|assumption].
      specialize (Ha x Hx). lia.
    + destruct (proj2 (Hext x) (in_cons b x l2 Hx)) as [E|Hin]; [|assumption].
      specialize (Hb x Hx). lia.
Qed.

Lemma StronglySorted_filter_ids (p : DogRow.t -> bool) (t : list DogRow.t) :
  StronglySorted Z.lt (map DogRow.id t) ->
  StronglySorted Z.lt (map DogRow.id (List.filter p t)).
Proof.
  induction t as [|r t IH]; simpl; intros H; [constructor|].
  inversion H as [|x l Hs Hr]; subst.
  destruct (p r); simpl; [|auto].
  constructor; [auto|].
  rewrite Forall_forall in *. intros i Hi. apply Hr.
  apply in_map_iff in Hi as (r' & E & Hin). apply filter_In in Hin as (Hin & _).
  apply in_map_iff. eauto.
Qed.

Lemma id_in_spec (ids : list Z) (r : DogRow.t) :
  id_in ids r = true <-> In (DogRow.id r) ids.
Proof.
  unfold id_in. rewrite existsb_exists. split.
  - intros (i & Hi & E). apply Z.eqb_eq in E. now subst.
  - intros Hi. exists (DogRow.id r). split; [assumption|apply Z.eqb_refl].
Qed.

Lemma same_id_same_row (t : list DogRow.t) (r r' : DogRow.t) :
  NoDup (map DogRow.id t) -> In r t -> In r' t ->
  DogRow.id r = DogRow.id r' -> r = r'.
Proof.
  induction t as [|a t IH]; simpl; [tauto|].
  intros Hnd Hr Hr' E. inversion Hnd as [|x l Hnot Hnd']; subst.
  destruct Hr as [<-|Hr], Hr' as [<-|Hr']; auto.
  - exfalso. apply Hnot. rewrite E. now apply in_map.
  - exfalso. apply Hnot. rewrite <- E. now apply in_map.
Qed.

(** X9.  After any sequence of requests, stores failing or not, the ids of
    the table are positive, within what the sequence has handed out, grow
    strictly along the table, and so are pairwise distinct. *)
Theorem history_ids_increasing (rs : list request) :
  StronglySorted Z.lt (map DogRow.id (dogs_table (history rs))) /\
  NoDup (map DogRow.id (dogs_table (history rs))) /\
  forall r, In r (dogs_table (history rs)) ->
            0 < DogRow.id r <= dogs_id_seq (history rs).
Proof.
  destruct (history_invariant rs) as (_ & _ & (Hs & Hb) & _).
  split; [assumption|]. split; [now apply StronglySorted_NoDup|].
  now apply Forall_forall.
Qed.

(** X10.  After any sequence of requests, every row of the table has a
    breed of at most 60 characters and a [walkerId] that is not null. *)
Theorem history_rows_well_formed (rs : list request) :
  rows_well_formed (history rs).
Proof. apply (history_invariant rs). Qed.

(** X11.  After any sequence of requests, whatever identifiers the
    requests brought, no two walkers of [users] have the same [_id]. *)
Theorem history_walkers_distinct (rs : list request) :
  NoDup (map UserDoc._id (users (history rs))).
Proof. apply (history_invariant rs). Qed.

(** X12.  After any sequence of requests, every id in a walker's [dogIds]
    is the id of a row of the table whose [walkerId] is that walker's
    identifier, and each walker holds its ids in strictly increasing order,
    hence none twice. *)
Theorem history_dogIds_backed (rs : list request) :
  dogIds_backed (history rs) /\
  forall u, In u (users (history rs)) -> NoDup (UserDoc.dogIds u).
Proof.
  destruct (history_invariant rs) as (_ & _ & _ & _ & Hback).
  split; [assumption|].
  intros u Hu. apply StronglySorted_NoDup. now apply (Hback u Hu).
Qed.

(** X13.  After any sequence of requests, PostgreSQL answering, a walker of
    [users] resolves [dogs] to one row per id of its [dogIds], in the order
    of [dogIds], and each of these rows names that walker. *)
Theorem history_dogs_follow_dogIds (rs : list request) (u : UserDoc.t) :
  In u (users (history rs)) ->
  pg_up (history rs) = true ->
  exists rows,
    fst (resolvers.User.dogs u (history rs)) = Return rows /\
    map DogRow.id rows = UserDoc.dogIds u /\
    forall r, In r rows -> denotes r u.
Proof.
  intros Hu Hup.
  destruct (history_invariant rs) as (_ & _ & (Hs & _) & _ & Hback).
  destruct (Hback u Hu) as (Hsorted & Hex).
  exists (List.filter (id_in (UserDoc.dogIds u)) (dogs_table (history rs))).
  split; [|split].
  - run. destruct (UserDoc.dogIds u) eqn:E; simpl.
    + clear. induction (dogs_table (history rs)); simpl; congruence.
    + now rewrite Hup.
  - apply StronglySorted_ext;
      [now apply StronglySorted_filter_ids|assumption|].
    intros i. split.
    + intros Hi. apply in_map_iff in Hi as (r & <- & Hr).
      apply filter_In in Hr as (_ & Hr). now apply id_in_spec.
    + intros Hi. destruct (Hex i Hi) as (r & Hr & <- & _).
      apply in_map. apply filter_In. split; [assumption|].
      now apply id_in_spec.
  - intros r Hr. apply filter_In in Hr as (Hr & Hi).
    apply id_in_spec in Hi. destruct (Hex _ Hi) as (r' & Hr' & E & Hd).
    rewrite (same_id_same_row (dogs_table (history rs)) r r'); auto.
    now apply StronglySorted_NoDup.
Qed.

Lemma history_dogs_follow_dogIds_witness :
  exists rows,
    fst (resolvers.User.dogs (UserDoc.mk (oid_of_hex bob_hex) "Bob" [1; 2])
           (history demo_requests)) = Return rows /\
    map DogRow.id rows = [1; 2].
Proof.
  destruct (history_dogs_follow_dogIds demo_requests
              (UserDoc.mk (oid_of_hex bob_hex) "Bob" [1; 2]))
    as (rows & H1 & H2 & _).
  - vm_compute. tauto.
  - reflexivity.
  - exists rows. split; assumption.
Defined.

(** X14.  After any sequence of requests, PostgreSQL answering and the
    sequence of ids not exhausted, [createDog] with no U+0000 in its
    arguments and a breed of at most 60 characters returns the new row,
    whose id is the next value of the sequence: the primary key never
    refuses it. *)
Theorem history_createDog_succeeds
    (rs : list request) (n b wid : string) :
  pg_up (history rs) = true ->
  dogs_id_seq (history rs) < serial_max ->
  has_nul n = false -> has_nul b = false -> has_nul wid = false ->
  (String.length b <= 60)%nat ->
  fst (resolvers.Mutation.createDog n b wid (history rs))
  = Return (Some (DogRow.mk (dogs_id_seq (history rs) + 1) n b (Some wid))).
Proof.
  intros Hup Hseq Hn Hbn Hw Hlen.
  destruct (history_invariant rs) as (_ & _ & (_ & Hb) & _).
  assert (has_id (dogs_id_seq (history rs) + 1) (dogs_table (history rs))
          = false) as Hid.
  { destruct (has_id _ _) eqn:E; [|reflexivity].
    unfold has_id in E. apply existsb_exists in E as (r & Hr & E).
    apply Z.eqb_eq in E. rewrite Forall_forall in Hb.
    specialize (Hb r Hr). lia. }
  assert (varchar 60 b = Some b) as Hv.
  { unfold varchar. apply Nat.leb_le in Hlen. now rewrite Hlen. }
  assert (insert_refused n b wid (dogs_id_seq (history rs)) = false) as Hr.
  { unfold insert_refused. rewrite Hn, Hbn, Hw. simpl.
    apply Z.leb_gt. exact Hseq. }
  run. rewrite Hup. simpl. rewrite Hr. simpl. rewrite Hv. simpl.
  rewrite Hid. simpl.
  destruct (ObjectID wid); simpl; [destruct (mongo_up (history rs)); simpl|];
    reflexivity.
Qed.

Lemma history_createDog_succeeds_witness :
  fst (resolvers.Mutation.createDog "Rex" "Beagle" short_walkerId
         (history demo_requests))
  = Return (Some (DogRow.mk 3 "Rex" "Beagle" (Some short_walkerId))).
Proof.
  apply (history_createDog_succeeds demo_requests "Rex" "Beagle"
           short_walkerId).
  - reflexivity.
  - vm_compute. reflexivity.
  - reflexivity.
  - reflexivity.
  - reflexivity.
  - vm_compute. lia.
Defined.
